(** * Automation/main.py: the script runner and its orchestrator

    A shallow embedding of [src/Automation/main.py]: the repetition
    parser, the script validator, the script runner and the result
    collection loop of [main].  Python [str] values are modelled as lists
    of ASCII characters; the operating system (file system metadata,
    the process-wide random source and the outcome of each child process)
    is an oracle read through an explicit state-and-exception monad. *)

From Stdlib Require Import List Ascii String ZArith Lia Permutation Bool.
Import ListNotations.

Open Scope list_scope.

(** ** Python values *)

(** A Python [str] (file names, paths, captured output). *)
Definition str := list ascii.

Definition py (x : string) : str := list_ascii_of_string x.

Definition path := str.

(** A Python [float] is only carried around by this code (printed and
    passed to [time.sleep]); it is kept as its binary64 bit pattern. *)
Definition float := N.

(** Exceptions that can reach the code under study. *)
Inductive pyexn :=
| CalledProcessError (returncode : Z) (stdout stderr : str)
| OSError (errno : Z)        (* e.g. FileNotFoundError: no [python] on PATH *)
| UnicodeDecodeError         (* captured output not decodable with [text=True] *)
| BrokenProcessPool
| KeyboardInterrupt
| SystemExit (code : Z).

(** [except Exception] catches exactly the subclasses of [Exception];
    [KeyboardInterrupt] and [SystemExit] derive from [BaseException] only. *)
Definition is_Exception (e : pyexn) : bool :=
  match e with
  | KeyboardInterrupt | SystemExit _ => false
  | _ => true
  end.

(** ** The operating system *)

Inductive file_kind := Regular | Directory | OtherKind.

Definition file_kind_eqb (a b : file_kind) : bool :=
  match a, b with
  | Regular, Regular | Directory, Directory | OtherKind, OtherKind => true
  | _, _ => false
  end.

(** What [stat] (following symlinks) and [access(R_OK)] report. *)
Record node := { kind : file_kind; readable : bool }.

(** Outcome of [subprocess.run(["python", script_path], capture_output=True,
    text=True)]: the child exits with a status and captured streams that
    decode as text; or it exits with a status but its captured output does
    not decode in the locale's encoding, and [communicate] raises
    [UnicodeDecodeError] after the child has been waited for; or starting
    it raises. *)
Inductive proc_outcome :=
| Exited (returncode : Z) (stdout stderr : str)
| ExitedUndecodable (returncode : Z)
| SpawnFailed (e : pyexn).

Record env := {
  stat : path -> option node;     (* None: [os.stat] fails *)
  draw : nat -> float;            (* n-th value of [random.uniform(3, 10)] *)
  spawn : nat -> proc_outcome     (* n-th child process started *)
}.

Inductive level := INFO | WARNING | ERROR.

(** One constructor per logging call of main.py, with its interpolated
    values. *)
Inductive msg :=
| MsgRepeated (filename : str) (repetitions : nat)
    (* f"Script {filename} will be repeated {repetitions} times" *)
| MsgNoRepetition (filename : str)
    (* f"No repetition number found for {filename}. Defaulting to 1." *)
| MsgNotExist (p : path)        (* f"Script does not exist: {script_path}" *)
| MsgNotAFile (p : path)        (* f"Not a file: {script_path}" *)
| MsgNotReadable (p : path)     (* f"Script is not readable: {script_path}" *)
| MsgAttempt (attempt max : nat) (p : path) (delay : float)
    (* f"Attempt {attempt + 1}/{max_repetitions} for {script_path}: Delay {delay:.2f}s" *)
| MsgCompleted (p : path) (attempt : nat)
    (* f"Successfully completed {script_path} (Attempt {attempt + 1})" *)
| MsgErrorExecuting (p : path) (attempt max : nat)
| MsgStdout (out : str)
| MsgStderr (err : str)
| MsgUnexpected (script : path) (e : pyexn)
    (* f"Unexpected error with {script}: {e}" *)
| MsgSummary
| MsgSuccessful (l : list path)
| MsgFailed (l : list path).

Inductive event :=
| EvLog (lv : level) (m : msg)
| EvSleep (d : float)
| EvSpawn (argv : list str).

Record st := { ndraw : nat; nspawn : nat; trace : list event }.

(** ** The monad: state passing with Python exceptions *)

Definition M (A : Type) := env -> st -> (A + pyexn) * st.

Definition ret {A} (x : A) : M A := fun _ σ => (inl x, σ).

Definition bind {A B} (m : M A) (k : A -> M B) : M B :=
  fun E σ => match m E σ with
             | (inl x, σ') => k x E σ'
             | (inr e, σ') => (inr e, σ')
             end.

Definition raise {A} (e : pyexn) : M A := fun _ σ => (inr e, σ).

(** [try: m except ...]: the handler re-raises what it does not catch. *)
Definition catch {A} (m : M A) (h : pyexn -> M A) : M A :=
  fun E σ => match m E σ with
             | (inl x, σ') => (inl x, σ')
             | (inr e, σ') => h e E σ'
             end.

Notation "x <- m ;; k" := (bind m (fun x => k))
  (at level 61, m at next level, right associativity).
Notation "m ;; k" := (bind m (fun _ => k))
  (at level 61, right associativity).

Definition emit (ev : event) : M unit :=
  fun _ σ => (inl tt, {| ndraw := ndraw σ; nspawn := nspawn σ;
                         trace := trace σ ++ [ev] |}).

Definition log (lv : level) (m : msg) : M unit := emit (EvLog lv m).

Definition get_env : M env := fun E σ => (inl E, σ).

(** ** [os.path] and [re] *)

Definition slash : ascii := "/"%char.

(** [posixpath.basename]: [p[p.rfind('/') + 1:]]. *)
Fixpoint basename_acc (p : str) (acc : str) : str :=
  match p with
  | [] => List.rev acc
  | c :: p' => if Ascii.eqb c slash then basename_acc p' [] else basename_acc p' (c :: acc)
  end.

Definition basename (p : path) : str := basename_acc p [].

Definition is_digit (c : ascii) : bool :=
  (48 <=? nat_of_ascii c) && (nat_of_ascii c <=? 57).

Fixpoint take_digits (t : str) : str :=
  match t with
  | c :: t' => if is_digit c then c :: take_digits t' else []
  | [] => []
  end.

Fixpoint str_eqb (a b : str) : bool :=
  match a, b with
  | [], [] => true
  | c :: a', d :: b' => Ascii.eqb c d && str_eqb a' b'
  | _, _ => false
  end.

(** [\.py$] at the current position: [$] (no MULTILINE) matches at the
    end of the string or just before a newline that ends it. *)
Definition dot_py_end (t : str) : bool :=
  str_eqb t (py ".py") || str_eqb t (py ".py" ++ ["010"%char]).

(** [(\d+)] is greedy and backtracks: try [k] digits, then fewer. *)
Fixpoint try_digits (t : str) (k : nat) : option str :=
  match k with
  | 0 => None
  | S k' => if dot_py_end (skipn k t) then Some (firstn k t) else try_digits t k'
  end.

(** Match of [-(\d+)\.py$] at the start of [t]; the captured group. *)
Definition match_here (t : str) : option str :=
  match t with
  | c :: t' => if Ascii.eqb c "-"%char then try_digits t' (List.length (take_digits t')) else None
  | [] => None
  end.

(** [re.search(r'-(\d+)\.py$', filename)]: leftmost match, group 1. *)
Fixpoint re_search (t : str) : option str :=
  match match_here t with
  | Some g => Some g
  | None => match t with [] => None | _ :: t' => re_search t' end
  end.

Definition digit_value (c : ascii) : nat := nat_of_ascii c - 48.

(** [int(digits)] on a string of ASCII decimal digits. *)
Definition py_int (digits : str) : nat :=
  fold_left (fun acc c => 10 * acc + digit_value c) digits 0.

(** ** The functions of main.py *)

Definition parse_repetitions (script_path : path) : M nat :=
  let filename := basename script_path in
  match re_search filename with
  | Some g =>
      let repetitions := py_int g in
      log INFO (MsgRepeated filename repetitions);;
      ret repetitions
  | None =>
      log WARNING (MsgNoRepetition filename);;
      ret 1
  end.

(** [os.path.exists], [os.path.isfile] and [os.access(p, os.R_OK)], all
    read from the same file system snapshot. *)
Definition path_exists (p : path) : M bool :=
  E <- get_env;; ret (match stat E p with Some _ => true | None => false end).

Definition path_isfile (p : path) : M bool :=
  E <- get_env;;
  ret (match stat E p with Some n => file_kind_eqb (kind n) Regular | None => false end).

Definition access_R_OK (p : path) : M bool :=
  E <- get_env;; ret (match stat E p with Some n => readable n | None => false end).

Definition validate_script (script_path : path) : M bool :=
  ex <- path_exists script_path;;
  if negb ex then log ERROR (MsgNotExist script_path);; ret false else
  isf <- path_isfile script_path;;
  if negb isf then log ERROR (MsgNotAFile script_path);; ret false else
  acc <- access_R_OK script_path;;
  if negb acc then log ERROR (MsgNotReadable script_path);; ret false else
  ret true.

(** [get_random_delay()]: one draw from the process-wide random source. *)
Definition get_random_delay : M float :=
  fun E σ => (inl (draw E (ndraw σ)),
              {| ndraw := S (ndraw σ); nspawn := nspawn σ; trace := trace σ |}).

Definition sleep (d : float) : M unit := emit (EvSleep d).

(** [subprocess.run(["python", script_path], check=True,
    capture_output=True, text=True)]. *)
Definition subprocess_run (script_path : path) : M unit :=
  fun E σ =>
    let σ' := {| ndraw := ndraw σ; nspawn := S (nspawn σ);
                 trace := trace σ ++ [EvSpawn [py "python"; script_path]] |} in
    match spawn E (nspawn σ) with
    | Exited 0 _ _ => (inl tt, σ')
    | Exited rc out err => (inr (CalledProcessError rc out err), σ')
    | ExitedUndecodable _ => (inr UnicodeDecodeError, σ')
    | SpawnFailed e => (inr e, σ')
    end.

(** The body of [for attempt in range(max_repetitions)], from [attempt]
    on, with [remaining] iterations left. *)
Fixpoint run_attempts (script_path : path) (max_repetitions attempt remaining : nat)
  : M bool :=
  match remaining with
  | 0 => ret true
  | S remaining' =>
      delay <- get_random_delay;;
      log INFO (MsgAttempt (attempt + 1) max_repetitions script_path delay);;
      sleep delay;;
      ok <- catch (subprocess_run script_path;;
                   log INFO (MsgCompleted script_path (attempt + 1));;
                   ret true)
                  (fun e => match e with
                            | CalledProcessError _ out err =>
                                log ERROR (MsgErrorExecuting script_path (attempt + 1) max_repetitions);;
                                log ERROR (MsgStdout out);;
                                log ERROR (MsgStderr err);;
                                ret false
                            | _ => raise e
                            end);;
      if ok then run_attempts script_path max_repetitions (S attempt) remaining'
      else ret false
  end.

Definition run_script (script_path : path) : M bool :=
  v <- validate_script script_path;;
  if negb v then ret false else
  max_repetitions <- parse_repetitions script_path;;
  run_attempts script_path max_repetitions 0 max_repetitions.

(** ** [main] *)

Definition scripts : list path :=
  [ py "Automation-Survey/Automation/BSME-2-M-105.py";
    py "Automation-Survey/Automation/BSA-3-M-20.py";
    py "Automation-Survey/Automation/BSED-2-F-20.py";
    py "Automation-Survey/Automation/BSED-3-M-5.py";
    py "Automation-Survey/Automation/BSED-3-F-40.py" ].

(** The futures of [script_futures], one per submitted script; a future
    is identified by the index of its script. *)
Definition futures : list nat := seq 0 (List.length scripts).

Definition script_of (i : nat) : path := nth i scripts [].

(** What [future.result()] does for a future: return the worker's value
    or raise. *)
Definition future_result := (bool + pyexn)%type.

(** [for future in as_completed(script_futures): ...], over the
    completion order [done]; the two lists are [successful_scripts] and
    [failed_scripts]. *)
Fixpoint collect (res : nat -> future_result) (done : list nat)
         (successful_scripts failed_scripts : list path) : M (list path * list path) :=
  match done with
  | [] => ret (successful_scripts, failed_scripts)
  | future :: rest =>
      let script := script_of future in
      lists <- catch (match res future with
                      | inl result =>
                          if result then ret (successful_scripts ++ [script], failed_scripts)
                          else ret (successful_scripts, failed_scripts ++ [script])
                      | inr e => raise e
                      end)
                     (fun e => if is_Exception e then
                                 log ERROR (MsgUnexpected script e);;
                                 ret (successful_scripts, failed_scripts ++ [script])
                               else raise e);;
      collect res rest (fst lists) (snd lists)
  end.

(** The body of [main] after the pool is started: the collection loop
    over a completion order, then the summary.  The two lists are
    returned so that they can be stated about. *)
Definition main_collect (res : nat -> future_result) (done : list nat)
  : M (list path * list path) :=
  lists <- collect res done [] [];;
  log INFO MsgSummary;;
  log INFO (MsgSuccessful (fst lists));;
  log INFO (MsgFailed (snd lists));;
  ret lists.

(** ** [setup_logging] *)

(** The handlers [setup_logging] attaches; [maxBytes] is kept in [Z]. *)
Inductive handler_kind :=
| RotatingFileHandler (filename : str) (maxBytes : Z) (backupCount : nat)
| StreamHandler.

Record handler := { h_kind : handler_kind; h_format : str }.

(** The module-level [logging.getLogger('script_runner')]: its level
    ([None] is NOTSET) and its [handlers] list. *)
Record logger := { lg_level : option level; lg_handlers : list handler }.

Definition setLevel (lv : level) (lg : logger) : logger :=
  {| lg_level := Some lv; lg_handlers := lg_handlers lg |}.

(** [addHandler] appends a handler object not yet attached; the handlers
    built by [setup_logging] are fresh objects, never already present. *)
Definition addHandler (h : handler) (lg : logger) : logger :=
  {| lg_level := lg_level lg; lg_handlers := lg_handlers lg ++ [h] |}.

Definition file_handler : handler :=
  {| h_kind := RotatingFileHandler (py "script_runner.log") (5 * 1024 * 1024) 3;
     h_format := py "%(asctime)s - %(levelname)s - %(filename)s:%(lineno)d - %(message)s" |}.

Definition console_handler : handler :=
  {| h_kind := StreamHandler; h_format := py "%(asctime)s - %(levelname)s: %(message)s" |}.

(** [setup_logging()] on the logger it configures.  Building
    [RotatingFileHandler('script_runner.log', ...)] opens the file at once;
    [file_open] is what that open does: [None] when it succeeds, or the
    [OSError] it raises (e.g. [IsADirectoryError], [PermissionError]),
    which propagates after [setLevel] has already taken effect.  The
    first component is the exception raised, if any. *)
Definition setup_logging (file_open : option pyexn) (lg : logger) : option pyexn * logger :=
  match lg_handlers lg with
  | _ :: _ => (None, lg)
  | [] =>
      let lg := setLevel INFO lg in
      match file_open with
      | Some e => (Some e, lg)
      | None => (None, addHandler console_handler (addHandler file_handler lg))
      end
  end.

(** Successive calls of [setup_logging] on the same logger (each raised
    exception caught by the caller), the [n]-th opening the log file with
    outcome [n]-th of [opens] if it gets that far. *)
Definition setup_logging_calls (opens : list (option pyexn)) (lg : logger) : logger :=
  fold_left (fun lg o => snd (setup_logging o lg)) opens lg.

Definition file_opened (o : option pyexn) : bool :=
  match o with None => true | Some _ => false end.

(** ** Sample hosts *)

Definition st0 : st := {| ndraw := 0; nspawn := 0; trace := [] |}.

Definition regular_file : node := {| kind := Regular; readable := true |}.

Definition host (fs : path -> option node) (exits : nat -> proc_outcome) : env :=
  {| stat := fs; draw := fun _ => 0%N; spawn := exits |}.

(** Nothing exists on the file system. *)
Definition E_missing : env := host (fun _ => None) (fun _ => Exited 0 [] []).

(** Every path is a readable regular file and every child exits 0. *)
Definition E_all_ok : env := host (fun _ => Some regular_file) (fun _ => Exited 0 [] []).


(** Every path is a readable regular file; [python] cannot be started
    ([FileNotFoundError], errno 2). *)
Definition E_no_python : env :=
  host (fun _ => Some regular_file) (fun _ => SpawnFailed (OSError 2)).

(** Every path is a readable regular file; every child exits with status
    0 but writes bytes that are not valid text in the locale's encoding. *)
Definition E_undecodable : env :=
  host (fun _ => Some regular_file) (fun _ => ExitedUndecodable 0).

(** ** Reading the model *)

Definition with_trace (σ : st) (l : list event) : st :=
  {| ndraw := ndraw σ; nspawn := nspawn σ; trace := trace σ ++ l |}.

(** All three checks of [validate_script] pass. *)
Definition script_valid (E : env) (p : path) : bool :=
  match stat E p with
  | Some n => file_kind_eqb (kind n) Regular && readable n
  | None => false
  end.

(** The value [parse_repetitions] returns. *)
Definition repetitions (p : path) : nat :=
  match re_search (basename p) with Some g => py_int g | None => 1 end.

(** The [returncode] that [subprocess.run] reports, on the
    [CompletedProcess] it returns or on the [CalledProcessError] it
    raises; none when it raises anything else (the child could not be
    started, or its output could not be decoded). *)
Definition run_returncode (o : proc_outcome) : option Z :=
  match o with Exited rc _ _ => Some rc | ExitedUndecodable _ | SpawnFailed _ => None end.

(** The exit status of the child process, when one was started. *)
Definition child_status (o : proc_outcome) : option Z :=
  match o with Exited rc _ _ | ExitedUndecodable rc => Some rc | SpawnFailed _ => None end.

Definition is_CalledProcessError (e : pyexn) : bool :=
  match e with CalledProcessError _ _ _ => true | _ => false end.


(** [future.result()] returned [True]. *)
Definition succeeded (res : nat -> future_result) (i : nat) : bool :=
  match res i with inl true => true | _ => false end.

(** No future raises an exception that [except Exception] lets through. *)
Definition caught (r : future_result) : bool :=
  match r with inr e => is_Exception e | inl _ => true end.

Definition no_fatal (res : nat -> future_result) (done : list nat) : Prop :=
  forallb (fun i => caught (res i)) done = true.

Definition unexpected_logs (res : nat -> future_result) (done : list nat) : list event :=
  flat_map (fun i => match res i with
                     | inr e => [EvLog ERROR (MsgUnexpected (script_of i) e)]
                     | inl _ => []
                     end) done.

Definition path_eq_dec : forall a b : path, {a = b} + {a <> b} := list_eq_dec ascii_dec.

(** The events of one attempt that are not result logs: the attempt
    announcement, the sleep and the child process. *)
Definition attempt_event (ev : event) : bool :=
  match ev with
  | EvLog INFO (MsgAttempt _ _ _ _) | EvSleep _ | EvSpawn _ => true
  | _ => false
  end.

(** Those events for [k] attempts numbered from [a + 1], the delays being
    the draws from index [d] on. *)
Fixpoint attempt_events (p : path) (m : nat) (E : env) (d a k : nat) : list event :=
  match k with
  | 0 => []
  | S k' => [EvLog INFO (MsgAttempt (a + 1) m p (draw E d)); EvSleep (draw E d);
             EvSpawn [py "python"; p]] ++ attempt_events p m E (S d) (S a) k'
  end.


(** ** Lemmas *)

Lemma with_trace_nil σ : with_trace σ [] = σ.
Proof. destruct σ; unfold with_trace; simpl; rewrite app_nil_r; reflexivity. Qed.

Lemma with_trace_app σ a b : with_trace (with_trace σ a) b = with_trace σ (a ++ b).
Proof. destruct σ; unfold with_trace; simpl; rewrite app_assoc; reflexivity. Qed.

Lemma with_trace_nspawn σ l : nspawn (with_trace σ l) = nspawn σ.
Proof. reflexivity. Qed.

Lemma with_trace_ndraw σ l : ndraw (with_trace σ l) = ndraw σ.
Proof. reflexivity. Qed.

Lemma log_run lv m E σ : log lv m E σ = (inl tt, with_trace σ [EvLog lv m]).
Proof. reflexivity. Qed.

Lemma validate_script_run E p σ :
  validate_script p E σ =
    match stat E p with
    | None => (inl false, with_trace σ [EvLog ERROR (MsgNotExist p)])
    | Some n =>
        if negb (file_kind_eqb (kind n) Regular)
        then (inl false, with_trace σ [EvLog ERROR (MsgNotAFile p)])
        else if negb (readable n)
        then (inl false, with_trace σ [EvLog ERROR (MsgNotReadable p)])
        else (inl true, σ)
    end.
Proof.
  unfold validate_script, path_exists, path_isfile, access_R_OK, bind, get_env, ret.
  cbv beta.
  destruct (stat E p) as [[k r]|] eqn:Hs; simpl; [|reflexivity].
  rewrite Hs; simpl.
  destruct (file_kind_eqb k Regular); simpl; [|reflexivity].
  rewrite Hs; simpl.
  destruct r; reflexivity.
Qed.

Lemma validate_script_value E p σ :
  fst (validate_script p E σ) = inl (script_valid E p).
Proof.
  rewrite validate_script_run; unfold script_valid.
  destruct (stat E p) as [[k r]|]; simpl; [|reflexivity].
  destruct (file_kind_eqb k Regular), r; reflexivity.
Qed.

Lemma validate_script_invalid E p σ :
  script_valid E p = false ->
  exists m, validate_script p E σ = (inl false, with_trace σ [EvLog ERROR m]).
Proof.
  rewrite validate_script_run; unfold script_valid.
  destruct (stat E p) as [[k r]|]; simpl; [|eauto].
  destruct (file_kind_eqb k Regular), r; simpl; eauto; discriminate.
Qed.

Lemma validate_script_valid E p σ :
  script_valid E p = true -> validate_script p E σ = (inl true, σ).
Proof.
  rewrite validate_script_run; unfold script_valid.
  destruct (stat E p) as [[k r]|]; simpl; [|discriminate].
  destruct (file_kind_eqb k Regular), r; simpl; congruence.
Qed.

Lemma parse_repetitions_run E p σ :
  parse_repetitions p E σ =
    (inl (repetitions p),
     with_trace σ [match re_search (basename p) with
                   | Some g => EvLog INFO (MsgRepeated (basename p) (py_int g))
                   | None => EvLog WARNING (MsgNoRepetition (basename p))
                   end]).
Proof.
  unfold parse_repetitions, repetitions, bind, ret.
  destruct (re_search (basename p)); reflexivity.
Qed.

(** *** The pattern [-(\d+)\.py$] *)

Lemma str_eqb_eq a b : str_eqb a b = true -> a = b.
Proof.
  revert b; induction a as [|c a IH]; intros [|d b]; simpl; try discriminate; auto.
  intros H; apply andb_prop in H as [H1 H2].
  apply Ascii.eqb_eq in H1; subst; f_equal; auto.
Qed.

Lemma dot_py_end_inv t :
  dot_py_end t = true -> t = py ".py" \/ t = py ".py" ++ ["010"%char].
Proof.
  unfold dot_py_end; intros H; apply orb_prop in H as [H|H];
    apply str_eqb_eq in H; auto.
Qed.

Lemma take_digits_split t :
  exists rest, t = take_digits t ++ rest /\ Forall (fun c => is_digit c = true) (take_digits t).
Proof.
  induction t as [|c t IH]; simpl.
  - exists []; auto.
  - destruct (is_digit c) eqn:Hc.
    + destruct IH as [rest [Ht Hd]]; exists rest; simpl; split; [congruence|auto].
    + exists (c :: t); auto.
Qed.

Lemma try_digits_some t k g :
  try_digits t k = Some g ->
  exists tail, t = g ++ tail /\ dot_py_end tail = true /\ g <> [] /\
               List.length g <= k.
Proof.
  induction k as [|k IH]; cbn [try_digits]; [discriminate|].
  destruct (dot_py_end (skipn (S k) t)) eqn:Hd.
  - intros Hg; assert (Hgk : g = firstn (S k) t) by congruence; subst g.
    exists (skipn (S k) t); split; [symmetry; apply firstn_skipn|].
    split; [assumption|].
    rewrite length_firstn.
    destruct t as [|c t]; [discriminate|].
    split; [discriminate|lia].
  - intros Hg; destruct (IH Hg) as [tail [H1 [H2 [H3 H4]]]].
    exists tail; repeat split; auto.
Qed.

Lemma Forall_digits_prefix g tail d rest :
  g ++ tail = d ++ rest -> List.length g <= List.length d ->
  Forall (fun c => is_digit c = true) d -> Forall (fun c => is_digit c = true) g.
Proof.
  intros Heq Hlen Hd.
  assert (Hg : g = firstn (List.length g) d).
  { assert (E : firstn (List.length g) (g ++ tail) = firstn (List.length g) (d ++ rest))
      by now rewrite Heq.
    rewrite firstn_app, Nat.sub_diag, firstn_O, app_nil_r, firstn_all in E.
    rewrite firstn_app in E.
    replace (List.length g - List.length d) with 0 in E by lia.
    rewrite firstn_O, app_nil_r in E; exact E. }
  rewrite Hg; apply Forall_forall; intros x Hx.
  apply (proj1 (Forall_forall _ _) Hd).
  rewrite <- (firstn_skipn (List.length g) d); apply in_or_app; left; exact Hx.
Qed.

Lemma match_here_some t g :
  match_here t = Some g ->
  exists tail, t = "-"%char :: g ++ tail /\ dot_py_end tail = true /\ g <> [] /\
               Forall (fun c => is_digit c = true) g.
Proof.
  destruct t as [|c t]; simpl; [discriminate|].
  destruct (Ascii.eqb c "-"%char) eqn:Hc; [|discriminate].
  apply Ascii.eqb_eq in Hc; subst c.
  intros Hg; destruct (try_digits_some _ _ _ Hg) as [tail [H1 [H2 [H3 H4]]]].
  exists tail; repeat split; auto; [congruence|].
  destruct (take_digits_split t) as [rest [Hr Hd]].
  eapply Forall_digits_prefix; [|exact H4|exact Hd].
  rewrite <- H1; exact Hr.
Qed.

Lemma re_search_some t g :
  re_search t = Some g ->
  exists pre tail, t = pre ++ "-"%char :: g ++ tail /\ dot_py_end tail = true /\
                   g <> [] /\ Forall (fun c => is_digit c = true) g.
Proof.
  induction t as [|c t IH].
  - discriminate.
  - change (re_search (c :: t)) with
      (match match_here (c :: t) with Some g => Some g | None => re_search t end).
    destruct (match_here (c :: t)) as [g'|] eqn:Hm.
    + intros Hg; assert (Hgg : g' = g) by congruence; subst g'.
      destruct (match_here_some _ _ Hm) as [tail [H1 [H2 [H3 H4]]]].
      exists [], tail; auto.
    + intros Hg; destruct (IH Hg) as [pre [tail [H1 H2]]].
      exists (c :: pre), tail; rewrite H1; auto.
Qed.

Lemma re_search_ends_dash_zero pre :
  re_search (pre ++ py "-0.py") = Some (py "0").
Proof.
  induction pre as [|c pre IH]; [reflexivity|].
  change (re_search ((c :: pre) ++ py "-0.py")) with
    (match match_here (c :: pre ++ py "-0.py") with
     | Some g => Some g | None => re_search (pre ++ py "-0.py") end).
  destruct (match_here (c :: pre ++ py "-0.py")) as [g|] eqn:Hm; [|exact IH].
  exfalso.
  destruct (match_here_some _ _ Hm) as [tail [H1 [H2 [H3 H4]]]].
  injection H1 as _ H1.
  destruct (dot_py_end_inv _ H2) as [->| ->].
  - assert (Hx : (pre ++ ["-"%char; "0"%char]) ++ py ".py" = g ++ py ".py")
      by (rewrite <- app_assoc; exact H1).
    apply app_inv_tail in Hx.
    assert (Hin : In "-"%char g) by (rewrite <- Hx; apply in_or_app; right; left; reflexivity).
    pose proof (proj1 (Forall_forall _ _) H4 _ Hin) as Hd.
    discriminate Hd.
  - assert (Hx : (pre ++ ["-"%char; "0"%char; "."%char; "p"%char]) ++ ["y"%char] =
                 (g ++ py ".py") ++ ["010"%char])
      by (rewrite <- !app_assoc; exact H1).
    apply app_inj_tail in Hx as [_ Hx]; discriminate Hx.
Qed.

Lemma py_int_acc_zero g acc :
  fold_left (fun acc c => 10 * acc + digit_value c) g acc = 0 <->
  acc = 0 /\ Forall (fun c => digit_value c = 0) g.
Proof.
  revert acc; induction g as [|c g IH]; intros acc; simpl.
  - split; [auto|tauto].
  - rewrite IH; split.
    + intros [H1 H2]; split; [lia|constructor; [lia|exact H2]].
    + intros [H1 H2]; inversion H2; subst; split; [lia|assumption].
Qed.

Lemma digit_zero c : is_digit c = true -> (digit_value c = 0 <-> c = "0"%char).
Proof.
  unfold is_digit, digit_value; intros H; apply andb_prop in H as [H1 H2].
  apply Nat.leb_le in H1; apply Nat.leb_le in H2.
  split.
  - intros H; rewrite <- (ascii_nat_embedding c).
    replace (nat_of_ascii c) with 48 by lia; reflexivity.
  - intros ->; reflexivity.
Qed.

Lemma py_int_zero g :
  Forall (fun c => is_digit c = true) g ->
  (py_int g = 0 <-> Forall (fun c => c = "0"%char) g).
Proof.
  intros Hd; unfold py_int; rewrite py_int_acc_zero.
  split.
  - intros [_ H]; rewrite Forall_forall in *; intros x Hx.
    apply (digit_zero x (Hd x Hx)); auto.
  - intros H; split; [reflexivity|]; rewrite Forall_forall in *; intros x Hx.
    apply (digit_zero x (Hd x Hx)); auto.
Qed.

(** *** The attempt loop *)

Definition after_spawn (σ : st) (p : path) (attempt max : nat) (d : float) : st :=
  {| ndraw := S (ndraw σ); nspawn := S (nspawn σ);
     trace := trace σ ++ [EvLog INFO (MsgAttempt (attempt + 1) max p d);
                          EvSleep d; EvSpawn [py "python"; p]] |}.

Definition failure_logs (p : path) (attempt max : nat) (out err : str) : list event :=
  [EvLog ERROR (MsgErrorExecuting p (attempt + 1) max);
   EvLog ERROR (MsgStdout out); EvLog ERROR (MsgStderr err)].

Lemma run_attempts_step p m a r E σ :
  run_attempts p m a (S r) E σ =
    let d := draw E (ndraw σ) in
    let σ1 := after_spawn σ p a m d in
    match spawn E (nspawn σ) with
    | Exited rc out err =>
        if Z.eqb rc 0
        then run_attempts p m (S a) r E (with_trace σ1 [EvLog INFO (MsgCompleted p (a + 1))])
        else (inl false, with_trace σ1 (failure_logs p a m out err))
    | ExitedUndecodable _ => (inr UnicodeDecodeError, σ1)
    | SpawnFailed (CalledProcessError _ out err) =>
        (inl false, with_trace σ1 (failure_logs p a m out err))
    | SpawnFailed e => (inr e, σ1)
    end.
Proof.
  destruct σ as [nd ns tr].
  cbn [run_attempts].
  unfold bind, catch, subprocess_run, log, emit, ret, raise, sleep, get_random_delay.
  simpl.
  destruct (spawn E ns) as [[|rc|rc] out err|rc|[]]; simpl;
    unfold with_trace, after_spawn; simpl;
    repeat rewrite <- app_assoc; simpl; reflexivity.
Qed.

Lemma run_attempts_counts p m a r E σ :
  exists k, k <= r /\
    nspawn (snd (run_attempts p m a r E σ)) = nspawn σ + k /\
    ndraw (snd (run_attempts p m a r E σ)) = ndraw σ + k.
Proof.
  revert a σ; induction r as [|r IH]; intros a σ.
  - exists 0; simpl; repeat split; lia.
  - rewrite run_attempts_step; cbv zeta.
    destruct (spawn E (nspawn σ)) as [rc out err|rc|[]];
      try (exists 1; simpl; repeat split; lia).
    destruct (Z.eqb rc 0).
    + destruct (IH (S a) (with_trace (after_spawn σ p a m (draw E (ndraw σ)))
                   [EvLog INFO (MsgCompleted p (a + 1))])) as [k [H1 [H2 H3]]].
      exists (S k); rewrite H2, H3; simpl; repeat split; lia.
    + exists 1; simpl; repeat split; lia.
Qed.






(** *** The runner *)

Definition parse_log (p : path) : event :=
  match re_search (basename p) with
  | Some g => EvLog INFO (MsgRepeated (basename p) (py_int g))
  | None => EvLog WARNING (MsgNoRepetition (basename p))
  end.

Lemma run_script_invalid E p σ :
  script_valid E p = false ->
  exists m, run_script p E σ = (inl false, with_trace σ [EvLog ERROR m]).
Proof.
  intros Hv; destruct (validate_script_invalid E p σ Hv) as [m Hm].
  exists m; unfold run_script, bind at 1; rewrite Hm; reflexivity.
Qed.

Lemma run_script_valid E p σ :
  script_valid E p = true ->
  run_script p E σ =
    run_attempts p (repetitions p) 0 (repetitions p) E (with_trace σ [parse_log p]).
Proof.
  intros Hv; unfold run_script, bind at 1; rewrite (validate_script_valid E p σ Hv).
  cbn [negb]; unfold bind; rewrite parse_repetitions_run; reflexivity.
Qed.

Lemma repetitions_dash_zero p pre :
  basename p = pre ++ py "-0.py" -> repetitions p = 0.
Proof.
  intros Hb; unfold repetitions; rewrite Hb, re_search_ends_dash_zero; reflexivity.
Qed.

(** ** Properties of the script runner *)

(** C1 (counterexample): every child exits with status 0, but its
    output does not decode, so [subprocess.run] raises
    [UnicodeDecodeError] on the first attempt and [run_script] returns
    neither [True] nor [False]. *)
Lemma run_script_undecodable_exit_zero :
  let p := script_of 3 in
  script_valid E_undecodable p = true /\
  (forall k, k < repetitions p -> child_status (spawn E_undecodable (nspawn st0 + k)) = Some 0%Z) /\
  fst (run_script p E_undecodable st0) = inr UnicodeDecodeError.
Proof.
  cbv zeta; split; [reflexivity|split; [intros k _; reflexivity|]].
  vm_compute; reflexivity.
Qed.




(** C5: a path that fails validation makes [run_script] return [False]
    at once: the only effect is one error log entry (no random draw, no
    sleep, no child process). *)
Theorem run_script_invalid_immediate E p σ :
  script_valid E p = false ->
  exists m, run_script p E σ = (inl false, with_trace σ [EvLog ERROR m]).
Proof. apply run_script_invalid. Qed.

(** C10: a valid path whose file name ends in [-0.py] makes
    [run_script] return [True] with no attempt: the only effect is the
    repeat-count log entry (no random draw, no sleep, no child process). *)
Theorem run_script_dash_zero E p σ pre :
  script_valid E p = true -> basename p = pre ++ py "-0.py" ->
  run_script p E σ = (inl true, with_trace σ [EvLog INFO (MsgRepeated (basename p) 0)]).
Proof.
  intros Hv Hb.
  rewrite (run_script_valid E p σ Hv), (repetitions_dash_zero p pre Hb).
  unfold parse_log; rewrite Hb, re_search_ends_dash_zero; reflexivity.
Qed.

(** ** Properties of the repetition parser and the validator *)

(** C2 (defect): [$] also matches just before a newline that ends the
    string, so a file name ending in [".py\n"], which does not end with
    [.py], still yields the digits before it instead of 1. *)
Theorem parse_repetitions_trailing_newline E σ :
  let p := py "Automation-Survey/Automation/BSED-3-F-40.py" ++ ["010"%char] in
  parse_repetitions p E σ =
    (inl 40, with_trace σ [EvLog INFO (MsgRepeated (basename p) 40)]).
Proof. reflexivity. Qed.

(** C9 (counterexample): [x-0.py] yields a repeat count of 0. *)
Lemma parse_repetitions_zero :
  fst (parse_repetitions (py "Automation-Survey/Automation/BSED-3-F-0.py") E_all_ok st0) = inl 0.
Proof. reflexivity. Qed.

(** C9 (as amended): the repeat count is a natural number; it is 0
    exactly when the final [-digits.py] group of the file name consists of
    zeros only, and at least 1 otherwise; it is 1 when there is no match. *)
Theorem parse_repetitions_zero_iff E p σ :
  exists n, fst (parse_repetitions p E σ) = inl n /\
    (n = 0 <-> exists g, re_search (basename p) = Some g /\
                         Forall (fun c => c = "0"%char) g) /\
    (1 <= n <-> ~ exists g, re_search (basename p) = Some g /\
                            Forall (fun c => c = "0"%char) g) /\
    (re_search (basename p) = None -> n = 1).
Proof.
  exists (repetitions p); rewrite parse_repetitions_run; split; [reflexivity|].
  assert (H : repetitions p = 0 <->
              exists g, re_search (basename p) = Some g /\ Forall (fun c => c = "0"%char) g).
  { unfold repetitions.
    destruct (re_search (basename p)) as [g|] eqn:Hs.
    - destruct (re_search_some _ _ Hs) as [pre [tail [_ [_ [_ Hd]]]]].
      rewrite (py_int_zero g Hd); split.
      + intros Hz; exists g; auto.
      + intros [g' [Hg' Hz]]; congruence.
    - split; [discriminate|intros [g [Hg _]]; discriminate]. }
  split; [exact H|split].
  - rewrite <- H; lia.
  - unfold repetitions; intros ->; reflexivity.
Qed.

(** C4: [validate_script] checks existence, then regular-file kind, then
    read access, stopping at the first failed check with its own error
    message; it returns [True] exactly when all three hold, and [False] for
    a missing path and for a directory. *)
Theorem validate_script_checks E p σ :
  validate_script p E σ =
    match stat E p with
    | None => (inl false, with_trace σ [EvLog ERROR (MsgNotExist p)])
    | Some n =>
        if negb (file_kind_eqb (kind n) Regular)
        then (inl false, with_trace σ [EvLog ERROR (MsgNotAFile p)])
        else if negb (readable n)
        then (inl false, with_trace σ [EvLog ERROR (MsgNotReadable p)])
        else (inl true, σ)
    end /\
  (fst (validate_script p E σ) = inl true <->
     exists n, stat E p = Some n /\ kind n = Regular /\ readable n = true) /\
  (stat E p = None -> fst (validate_script p E σ) = inl false) /\
  (forall n, stat E p = Some n -> kind n = Directory -> fst (validate_script p E σ) = inl false) /\
  MsgNotExist p <> MsgNotAFile p /\ MsgNotAFile p <> MsgNotReadable p /\
  MsgNotExist p <> MsgNotReadable p.
Proof.
  rewrite validate_script_run.
  split; [reflexivity|].
  split; [|split; [|split; [|repeat split; discriminate]]].
  - destruct (stat E p) as [[k r]|]; simpl.
    + destruct k, r; simpl; split; intros H;
        first [ discriminate H | reflexivity
              | solve [exists {| kind := Regular; readable := true |}; auto]
              | (destruct H as [n [Hn [Hk Hr]]]; injection Hn; intros; subst; simpl in *; congruence) ].
    + split; [discriminate|intros [n [Hn _]]; discriminate].
  - intros ->; reflexivity.
  - intros n -> Hk; rewrite Hk; reflexivity.
Qed.

(** *** The collection loop *)

Lemma filter_partition_perm {A} (f : A -> bool) l :
  Permutation (filter f l ++ filter (fun x => negb (f x)) l) l.
Proof.
  induction l as [|a l IH]; simpl; [constructor|].
  destruct (f a); simpl.
  - constructor; exact IH.
  - rewrite <- Permutation_middle; constructor; exact IH.
Qed.

Lemma filter_perm {A} (f : A -> bool) l1 l2 :
  Permutation l1 l2 -> Permutation (filter f l1) (filter f l2).
Proof.
  induction 1; simpl.
  - constructor.
  - destruct (f x); [constructor|]; assumption.
  - destruct (f x), (f y); try constructor; reflexivity.
  - etransitivity; eassumption.
Qed.

Lemma collect_run res done S F E σ :
  no_fatal res done ->
  collect res done S F E σ =
    (inl (S ++ map script_of (filter (succeeded res) done),
          F ++ map script_of (filter (fun i => negb (succeeded res i)) done)),
     with_trace σ (unexpected_logs res done)).
Proof.
  revert S F σ; induction done as [|i rest IH]; intros S F σ Hnf.
  - simpl; rewrite !app_nil_r, with_trace_nil; reflexivity.
  - unfold no_fatal in Hnf; cbn [forallb] in Hnf.
    apply andb_prop in Hnf as [Hi Hrest].
    cbn [collect]; unfold bind, catch, succeeded, unexpected_logs; cbn [filter flat_map].
    fold (unexpected_logs res rest).
    destruct (res i) as [[|]|e]; cbn.
    + rewrite IH by exact Hrest; rewrite <- app_assoc; reflexivity.
    + rewrite IH by exact Hrest; rewrite <- app_assoc; reflexivity.
    + unfold caught in Hi; rewrite Hi; cbn.
      rewrite IH by exact Hrest.
      destruct σ; unfold with_trace; simpl; rewrite <- !app_assoc; reflexivity.
Qed.

Lemma collect_prefix res pre rest S F E σ :
  no_fatal res pre ->
  collect res (pre ++ rest) S F E σ =
    collect res rest (S ++ map script_of (filter (succeeded res) pre))
                     (F ++ map script_of (filter (fun i => negb (succeeded res i)) pre))
                     E (with_trace σ (unexpected_logs res pre)).
Proof.
  revert S F σ; induction pre as [|i pre IH]; intros S F σ Hnf.
  - simpl; rewrite !app_nil_r, with_trace_nil; reflexivity.
  - unfold no_fatal in Hnf; cbn [forallb] in Hnf.
    apply andb_prop in Hnf as [Hi Hrest].
    cbn [collect app]; unfold bind, catch, succeeded, unexpected_logs; cbn [filter flat_map].
    fold (unexpected_logs res pre).
    destruct (res i) as [[|]|e]; cbn.
    + rewrite IH by exact Hrest; rewrite <- app_assoc; reflexivity.
    + rewrite IH by exact Hrest; rewrite <- app_assoc; reflexivity.
    + unfold caught in Hi; rewrite Hi; cbn.
      rewrite IH by exact Hrest.
      destruct σ; unfold with_trace; simpl; rewrite <- !app_assoc; reflexivity.
Qed.

Lemma main_collect_value res done E σ :
  no_fatal res done ->
  fst (main_collect res done E σ) =
    inl (map script_of (filter (succeeded res) done),
         map script_of (filter (fun i => negb (succeeded res i)) done)).
Proof.
  intros Hnf; unfold main_collect, bind at 1; rewrite (collect_run res done [] [] E σ Hnf).
  reflexivity.
Qed.

Lemma scripts_NoDup : NoDup scripts.
Proof.
  unfold scripts.
  repeat constructor; cbn; intros H; repeat destruct H as [H|H];
    try discriminate H; exact H.
Qed.

Lemma map_script_of_futures : map script_of futures = scripts.
Proof. reflexivity. Qed.

Lemma script_of_inj i j :
  i < List.length scripts -> j < List.length scripts -> script_of i = script_of j -> i = j.
Proof.
  intros Hi Hj H; apply (proj1 (NoDup_nth scripts []) scripts_NoDup i j Hi Hj H).
Qed.

(** ** Properties of the orchestrator *)

(** C7 (counterexample): [except Exception] does not catch
    [KeyboardInterrupt] (a worker interrupted by Ctrl-C sends it back to
    the parent through [future.result()]): it leaves the loop, no unit is
    recorded or logged, and the remaining futures are not processed. *)
Lemma collect_keyboard_interrupt_escapes :
  let res := fun i => if Nat.eqb i 0 then inr KeyboardInterrupt else inl true in
  main_collect res futures E_all_ok st0 = (inr KeyboardInterrupt, st0).
Proof. reflexivity. Qed.

(** C7 (as amended): every exception derived from [Exception] raised by
    [future.result()] is caught, logged with its script, and that script
    is recorded as failed; the loop still finishes and records every
    unit of the completion order.  An exception that derives from
    [BaseException] only is not caught: the loop raises it at that unit,
    after logging only the errors of the units before it. *)
Theorem collect_catches_exceptions res done E σ :
  (no_fatal res done ->
   exists successful failed σ',
     collect res done [] [] E σ = (inl (successful, failed), σ') /\
     Permutation (successful ++ failed) (map script_of done) /\
     forall i e, In i done -> res i = inr e ->
       In (script_of i) failed /\
       In (EvLog ERROR (MsgUnexpected (script_of i) e)) (trace σ')) /\
  (forall pre i post e,
     done = pre ++ i :: post -> no_fatal res pre -> res i = inr e -> is_Exception e = false ->
     collect res done [] [] E σ = (inr e, with_trace σ (unexpected_logs res pre))).
Proof.
  split.
  2:{ intros pre i post e -> Hnf Hres He.
      rewrite (collect_prefix res pre (i :: post) [] [] E σ Hnf).
      cbn [collect]; unfold bind, catch; rewrite Hres; cbn; rewrite He; reflexivity. }
  intros Hnf; rewrite (collect_run res done [] [] E σ Hnf).
  eexists _, _, _; split; [reflexivity|split].
  - simpl; rewrite <- map_app; apply Permutation_map, filter_partition_perm.
  - intros i e Hin Hres; split.
    + simpl; apply in_map, filter_In; split; [exact Hin|].
      unfold succeeded; rewrite Hres; reflexivity.
    + simpl; apply in_or_app; right.
      unfold unexpected_logs; apply in_flat_map; exists i; split; [exact Hin|].
      rewrite Hres; left; reflexivity.
Qed.

(** C8: when no future raises past [except Exception], the summary puts
    every submitted script in exactly one of the two lists, the successful
    ones being those whose result was [True], and two completion orders
    give the same lists up to order. *)
Theorem main_collect_partition res order1 order2 E1 E2 σ1 σ2 :
  Permutation order1 futures -> Permutation order2 futures -> no_fatal res futures ->
  exists s1 f1 s2 f2,
    fst (main_collect res order1 E1 σ1) = inl (s1, f1) /\
    fst (main_collect res order2 E2 σ2) = inl (s2, f2) /\
    Permutation s1 s2 /\ Permutation f1 f2 /\
    forall i, i < List.length scripts ->
      (In (script_of i) s1 <-> res i = inl true) /\
      count_occ path_eq_dec (s1 ++ f1) (script_of i) = 1.
Proof.
  intros H1 H2 Hnf.
  assert (Hnf1 : no_fatal res order1).
  { unfold no_fatal in *; rewrite forallb_forall in *.
    intros i Hi; apply Hnf; exact (Permutation_in _ H1 Hi). }
  assert (Hnf2 : no_fatal res order2).
  { unfold no_fatal in *; rewrite forallb_forall in *.
    intros i Hi; apply Hnf; exact (Permutation_in _ H2 Hi). }
  rewrite (main_collect_value res order1 E1 σ1 Hnf1), (main_collect_value res order2 E2 σ2 Hnf2).
  eexists _, _, _, _; split; [reflexivity|split; [reflexivity|]].
  assert (H12 : Permutation order1 order2) by (rewrite H1, H2; reflexivity).
  split; [apply Permutation_map, filter_perm, H12|].
  split; [apply Permutation_map, filter_perm, H12|].
  intros i Hi; split.
  - split.
    + intros Hin; apply in_map_iff in Hin as [j [Hj Hin]].
      apply filter_In in Hin as [Hin Hs].
      assert (Hjl : j < List.length scripts).
      { apply (Permutation_in _ H1) in Hin; unfold futures in Hin.
        apply in_seq in Hin; lia. }
      rewrite <- (script_of_inj j i Hjl Hi Hj).
      unfold succeeded in Hs; destruct (res j) as [[|]|]; congruence.
    + intros Hres; apply in_map, filter_In; split.
      * apply (Permutation_in _ (Permutation_sym H1)); unfold futures; apply in_seq; lia.
      * unfold succeeded; rewrite Hres; reflexivity.
  - assert (Hp : Permutation
              (map script_of (filter (succeeded res) order1) ++
               map script_of (filter (fun i => negb (succeeded res i)) order1)) scripts).
    { rewrite <- map_app, <- map_script_of_futures.
      apply Permutation_map; rewrite filter_partition_perm; exact H1. }
    rewrite (proj1 (Permutation_count_occ path_eq_dec _ _) Hp).
    apply (proj1 (NoDup_count_occ' path_eq_dec scripts) scripts_NoDup).
    apply nth_In; exact Hi.
Qed.

(** ** Instances on concrete inputs *)



(** C5 on the script of [main] that is missing from the file system. *)
Lemma run_script_invalid_immediate_witness :
  script_valid E_missing (script_of 0) = false /\
  exists m, run_script (script_of 0) E_missing st0 = (inl false, with_trace st0 [EvLog ERROR m]).
Proof.
  split; [reflexivity|].
  apply run_script_invalid_immediate; reflexivity.
Defined.

(** C10 on [BSED-3-F-0.py]. *)
Lemma run_script_dash_zero_witness :
  script_valid E_all_ok (py "Automation-Survey/Automation/BSED-3-F-0.py") = true /\
  basename (py "Automation-Survey/Automation/BSED-3-F-0.py") = py "BSED-3-F" ++ py "-0.py" /\
  run_script (py "Automation-Survey/Automation/BSED-3-F-0.py") E_all_ok st0 =
    (inl true, with_trace st0
       [EvLog INFO (MsgRepeated (basename (py "Automation-Survey/Automation/BSED-3-F-0.py")) 0)]).
Proof.
  split; [reflexivity|split; [reflexivity|]].
  apply (run_script_dash_zero E_all_ok _ st0 (py "BSED-3-F")); reflexivity.
Defined.

(** C7 with an [OSError] raised by the third future, and with a
    [KeyboardInterrupt] raised by the second one to complete. *)
Lemma collect_catches_exceptions_witness :
  let res := fun i => if Nat.eqb i 2 then inr (OSError 2) else inl (Nat.even i) in
  let res' := fun i => if Nat.eqb i 1 then inr KeyboardInterrupt else res i in
  no_fatal res futures /\
  (exists successful failed σ',
    collect res futures [] [] E_all_ok st0 = (inl (successful, failed), σ') /\
    Permutation (successful ++ failed) (map script_of futures) /\
    forall i e, In i futures -> res i = inr e ->
      In (script_of i) failed /\
      In (EvLog ERROR (MsgUnexpected (script_of i) e)) (trace σ')) /\
  collect res' [2; 1; 0; 3; 4] [] [] E_all_ok st0 =
    (inr KeyboardInterrupt, with_trace st0 (unexpected_logs res' [2])).
Proof.
  cbv zeta; split; [reflexivity|split].
  - apply (proj1 (collect_catches_exceptions _ futures E_all_ok st0)); reflexivity.
  - apply (proj2 (collect_catches_exceptions _ [2; 1; 0; 3; 4] E_all_ok st0) [2] 1 [0; 3; 4]);
      reflexivity.
Defined.

(** C8 on the end-to-end example: the first script of [main] fails, the
    four others succeed; submission order against reversed order. *)
Lemma main_collect_partition_witness :
  let res := fun i => if Nat.eqb i 0 then inl false else inl true in
  exists s1 f1 s2 f2,
    fst (main_collect res futures E_all_ok st0) = inl (s1, f1) /\
    fst (main_collect res [4; 3; 2; 1; 0] E_all_ok st0) = inl (s2, f2) /\
    Permutation s1 s2 /\ Permutation f1 f2 /\
    forall i, i < List.length scripts ->
      (In (script_of i) s1 <-> res i = inl true) /\
      count_occ path_eq_dec (s1 ++ f1) (script_of i) = 1.
Proof.
  cbv zeta.
  apply main_collect_partition.
  - apply Permutation_refl.
  - apply Permutation_sym, (Permutation_rev futures).
  - reflexivity.
Defined.

(** ** Further properties of the runner *)

Lemma attempt_event_failure_logs p a m out err :
  filter attempt_event (failure_logs p a m out err) = [].
Proof. reflexivity. Qed.

Lemma run_attempts_events p m a r E σ :
  exists new k,
    trace (snd (run_attempts p m a r E σ)) = trace σ ++ new /\
    nspawn (snd (run_attempts p m a r E σ)) = nspawn σ + k /\
    filter attempt_event new = attempt_events p m E (ndraw σ) a k.
Proof.
  revert a σ; induction r as [|r IH]; intros a σ.
  - exists [], 0; simpl; rewrite app_nil_r; repeat split; lia.
  - rewrite run_attempts_step; cbv zeta.
    set (d := draw E (ndraw σ)).
    set (A := [EvLog INFO (MsgAttempt (a + 1) m p d); EvSleep d; EvSpawn [py "python"; p]]).
    assert (HA : filter attempt_event A = A) by reflexivity.
    assert (Hone : attempt_events p m E (ndraw σ) a 1 = A) by reflexivity.
    destruct (spawn E (nspawn σ)) as [rc out err|rc|[rc out err| | | | |]].
    + destruct (Z.eqb rc 0).
      * set (σ2 := with_trace (after_spawn σ p a m d) [EvLog INFO (MsgCompleted p (a + 1))]).
        destruct (IH (S a) σ2) as [new [k [H1 [H2 H3]]]].
        exists (A ++ [EvLog INFO (MsgCompleted p (a + 1))] ++ new), (S k).
        rewrite H1, H2; simpl; split; [rewrite <- !app_assoc; reflexivity|split; [lia|]].
        rewrite H3; reflexivity.
      * exists (A ++ failure_logs p a m out err), 1; simpl; split;
          [rewrite <- !app_assoc; reflexivity|split; [lia|reflexivity]].
    + exists A, 1; simpl; split; [reflexivity|split; [lia|reflexivity]].
    + exists (A ++ failure_logs p a m out err), 1; simpl; split;
        [rewrite <- !app_assoc; reflexivity|split; [lia|reflexivity]].
    + exists A, 1; simpl; split; [reflexivity|split; [lia|reflexivity]].
    + exists A, 1; simpl; split; [reflexivity|split; [lia|reflexivity]].
    + exists A, 1; simpl; split; [reflexivity|split; [lia|reflexivity]].
    + exists A, 1; simpl; split; [reflexivity|split; [lia|reflexivity]].
    + exists A, 1; simpl; split; [reflexivity|split; [lia|reflexivity]].
Qed.

Lemma run_attempts_spawn_error p m a r E σ k e :
  k < r ->
  (forall j, j < k -> run_returncode (spawn E (nspawn σ + j)) = Some 0%Z) ->
  spawn E (nspawn σ + k) = SpawnFailed e -> is_CalledProcessError e = false ->
  fst (run_attempts p m a r E σ) = inr e.
Proof.
  revert a σ k; induction r as [|r IH]; intros a σ k Hk Hok Hs He; [lia|].
  rewrite run_attempts_step; cbv zeta.
  destruct k as [|k].
  - rewrite Nat.add_0_r in Hs; rewrite Hs.
    destruct e; simpl in He; try discriminate; reflexivity.
  - pose proof (Hok 0 ltac:(lia)) as H0; rewrite Nat.add_0_r in H0.
    destruct (spawn E (nspawn σ)) as [rc0 out0 err0|rc0|e0]; simpl in H0; try discriminate.
    injection H0 as ->; simpl Z.eqb; cbv iota.
    apply (IH _ _ k); [lia| |simpl; replace (S (nspawn σ + k)) with (nspawn σ + S k) by lia; exact Hs|exact He].
    intros j Hj; simpl.
    replace (S (nspawn σ + j)) with (nspawn σ + S j) by lia.
    apply Hok; lia.
Qed.


Lemma attempt_event_parse_log p : attempt_event (parse_log p) = false.
Proof. unfold parse_log; destruct (re_search (basename p)); reflexivity. Qed.

(** [run_script] draws one delay per attempt and, for attempt [j]
    (numbered from 1, at most the repeat count), announces it, sleeps the
    [j]-th drawn delay and then starts [python <script_path>], in this
    order; apart from log entries it does nothing else. *)
Theorem run_script_attempt_events E p σ :
  exists new k,
    trace (snd (run_script p E σ)) = trace σ ++ new /\
    nspawn (snd (run_script p E σ)) = nspawn σ + k /\
    ndraw (snd (run_script p E σ)) = ndraw σ + k /\
    k <= repetitions p /\
    filter attempt_event new = attempt_events p (repetitions p) E (ndraw σ) 0 k.
Proof.
  destruct (script_valid E p) eqn:Hv.
  - rewrite (run_script_valid E p σ Hv).
    set (σ1 := with_trace σ [parse_log p]).
    destruct (run_attempts_events p (repetitions p) 0 (repetitions p) E σ1)
      as [new [k [H1 [H2 H3]]]].
    destruct (run_attempts_counts p (repetitions p) 0 (repetitions p) E σ1)
      as [k' [Hk' [H2' H3']]].
    assert (k' = k) by (rewrite H2 in H2'; lia); subst k'.
    exists (parse_log p :: new), k.
    rewrite H1, H2, H3'; simpl; split; [rewrite <- app_assoc; reflexivity|].
    split; [reflexivity|split; [reflexivity|split; [exact Hk'|]]].
    rewrite attempt_event_parse_log; exact H3.
  - destruct (run_script_invalid E p σ Hv) as [m Hm]; rewrite Hm.
    exists [EvLog ERROR m], 0; simpl; repeat split; lia.
Qed.

(** When a child process cannot be started (starting it raises an
    exception other than [CalledProcessError], e.g. no [python] on the
    PATH) on an attempt that is reached, [run_script] does not return
    [False]: the exception propagates out of it. *)
Theorem run_script_spawn_error E p σ k e :
  script_valid E p = true -> k < repetitions p ->
  (forall j, j < k -> run_returncode (spawn E (nspawn σ + j)) = Some 0%Z) ->
  spawn E (nspawn σ + k) = SpawnFailed e -> is_CalledProcessError e = false ->
  fst (run_script p E σ) = inr e.
Proof.
  intros Hv Hk Hok Hs He; rewrite (run_script_valid E p σ Hv).
  exact (run_attempts_spawn_error p (repetitions p) 0 (repetitions p) E
           (with_trace σ [parse_log p]) k e Hk Hok Hs He).
Qed.


Lemma run_script_spawn_error_witness :
  fst (run_script (py "Automation-Survey/Automation/BSED-3-M-5.py") E_no_python st0)
  = inr (OSError 2).
Proof.
  apply (run_script_spawn_error E_no_python _ st0 0); try reflexivity.
  - vm_compute; lia.
  - intros j Hj; lia.
Defined.


(** ** Further properties of the orchestrator *)


(** When every exception raised by [future.result()] derives from
    [Exception], [main] logs one error per such future, then the summary
    header, the successful list and the failed list; each list holds its
    scripts in completion order. *)
Theorem main_collect_run res order E σ :
  no_fatal res order ->
  let s := map script_of (filter (succeeded res) order) in
  let f := map script_of (filter (fun i => negb (succeeded res i)) order) in
  main_collect res order E σ =
    (inl (s, f),
     with_trace σ (unexpected_logs res order ++
                   [EvLog INFO MsgSummary; EvLog INFO (MsgSuccessful s); EvLog INFO (MsgFailed f)])).
Proof.
  intros Hnf; cbv zeta.
  unfold main_collect, bind at 1; rewrite (collect_run res order [] [] E σ Hnf).
  simpl; unfold bind, log, emit, ret; simpl; destruct σ; unfold with_trace; simpl; repeat rewrite <- app_assoc; reflexivity.
Qed.

(** When a future raises an exception that does not derive from
    [Exception], [main] raises it: nothing after it in completion order is
    processed and no summary is logged; only the errors caught before it
    have been logged. *)
Theorem main_collect_fatal res pre i post e E σ :
  no_fatal res pre -> res i = inr e -> is_Exception e = false ->
  main_collect res (pre ++ i :: post) E σ = (inr e, with_trace σ (unexpected_logs res pre)).
Proof.
  intros Hnf Hres He.
  unfold main_collect, bind at 1; rewrite (collect_prefix res pre (i :: post) [] [] E σ Hnf).
  cbn [collect]; unfold bind, catch; rewrite Hres; cbn; rewrite He; reflexivity.
Qed.

Lemma main_collect_run_witness :
  let res := fun i => if Nat.eqb i 2 then inr (OSError 2) else inl (Nat.even i) in
  main_collect res [3; 2; 1; 0; 4] E_all_ok st0 =
    (inl ([script_of 0; script_of 4], [script_of 3; script_of 2; script_of 1]),
     with_trace st0 (unexpected_logs res [3; 2; 1; 0; 4] ++
       [EvLog INFO MsgSummary; EvLog INFO (MsgSuccessful [script_of 0; script_of 4]);
        EvLog INFO (MsgFailed [script_of 3; script_of 2; script_of 1])])).
Proof. cbv zeta; apply main_collect_run; reflexivity. Defined.

Lemma main_collect_fatal_witness :
  let res := fun i => if Nat.eqb i 1 then inr (SystemExit 1)
                      else if Nat.eqb i 0 then inr BrokenProcessPool else inl true in
  main_collect res ([0; 3] ++ 1 :: [2; 4]) E_all_ok st0 =
    (inr (SystemExit 1), with_trace st0 (unexpected_logs res [0; 3])).
Proof. cbv zeta; apply main_collect_fatal; reflexivity. Defined.

(** ** [setup_logging] *)

Lemma setup_logging_has_handlers o lg :
  lg_handlers lg <> [] -> setup_logging o lg = (None, lg).
Proof. unfold setup_logging; destruct (lg_handlers lg); [congruence|reflexivity]. Qed.

Lemma setup_logging_calls_has_handlers opens lg :
  lg_handlers lg <> [] -> setup_logging_calls opens lg = lg.
Proof.
  unfold setup_logging_calls; revert lg; induction opens as [|o opens IH]; intros lg Hh;
    [reflexivity|].
  simpl; rewrite (setup_logging_has_handlers o lg Hh); apply IH; exact Hh.
Qed.

(** Over any sequence of calls, [setup_logging] attaches its handlers at
    most once.  A logger that already has handlers is never changed and
    the log file is not opened.  On a logger without handlers, a call
    whose file open fails raises that error; the logger is then left at
    level INFO with no handler, so the next call tries again.  After the
    calls, the logger is at level INFO and has exactly the file handler
    ([script_runner.log], 5 MB, 3 backups) followed by the console
    handler if some open succeeded, and no handler otherwise. *)
Theorem setup_logging_calls_attach_once opens lg :
  (lg_handlers lg <> [] -> setup_logging_calls opens lg = lg) /\
  (lg_handlers lg = [] -> forall o, fst (setup_logging o lg) = o) /\
  (lg_handlers lg = [] -> opens <> [] ->
   lg_level (setup_logging_calls opens lg) = Some INFO /\
   lg_handlers (setup_logging_calls opens lg) =
     if existsb file_opened opens then [file_handler; console_handler] else []).
Proof.
  split; [apply setup_logging_calls_has_handlers|split].
  - intros Hh [e|]; unfold setup_logging; rewrite Hh; reflexivity.
  - revert lg; induction opens as [|o opens IH]; intros lg Hh Hne; [congruence|].
    unfold setup_logging_calls; cbn [fold_left existsb].
    destruct o as [e|]; cbn [file_opened orb].
    + set (lg1 := snd (setup_logging (Some e) lg)).
      assert (H1 : lg1 = {| lg_level := Some INFO; lg_handlers := [] |})
        by (subst lg1; unfold setup_logging, setLevel; rewrite Hh; reflexivity).
      rewrite H1; destruct opens as [|o' opens'].
      * split; reflexivity.
      * apply IH; [reflexivity|discriminate].
    + set (lg1 := snd (setup_logging None lg)).
      assert (H1 : lg1 = {| lg_level := Some INFO; lg_handlers := [file_handler; console_handler] |})
        by (subst lg1; unfold setup_logging, setLevel, addHandler; simpl; rewrite Hh; reflexivity).
      rewrite H1; fold (setup_logging_calls opens
                          {| lg_level := Some INFO; lg_handlers := [file_handler; console_handler] |}).
      rewrite setup_logging_calls_has_handlers by discriminate.
      split; reflexivity.
Qed.

Lemma setup_logging_calls_attach_once_witness :
  let fresh := {| lg_level := None; lg_handlers := [] |} in
  fst (setup_logging (Some (OSError 21)) fresh) = Some (OSError 21) /\
  setup_logging_calls [Some (OSError 21); None; Some (OSError 13)] fresh =
    {| lg_level := Some INFO; lg_handlers := [file_handler; console_handler] |} /\
  setup_logging_calls [None] {| lg_level := Some WARNING; lg_handlers := [console_handler] |} =
    {| lg_level := Some WARNING; lg_handlers := [console_handler] |}.
Proof.
  cbv zeta; split; [|split].
  - apply (proj1 (proj2 (setup_logging_calls_attach_once [] _))); reflexivity.
  - destruct (proj2 (proj2 (setup_logging_calls_attach_once
                               [Some (OSError 21); None; Some (OSError 13)]
                               {| lg_level := None; lg_handlers := [] |})))
      as [Hl Hh]; [reflexivity|discriminate|].
    destruct (setup_logging_calls _ _) as [l hs]; simpl in Hl, Hh; subst; reflexivity.
  - apply (proj1 (setup_logging_calls_attach_once [None] _)); discriminate.
Defined.

(** ** The file name read by [parse_repetitions] *)

Lemma basename_acc_slash d f acc :
  basename_acc (d ++ slash :: f) acc = basename_acc f [].
Proof.
  revert acc; induction d as [|c d IH]; intros acc; simpl.
  - reflexivity.
  - destruct (Ascii.eqb c slash); apply IH.
Qed.

(** Only the last path component is read: whatever directories precede
    the final ['/'], the repetition count and the logged name are those of
    the component after it; a path ending in ['/'] has an empty file name,
    so it runs once with a warning. *)
Theorem parse_repetitions_last_component d f E σ :
  parse_repetitions (d ++ slash :: f) E σ = parse_repetitions f E σ /\
  parse_repetitions (d ++ [slash]) E σ =
    (inl 1, with_trace σ [EvLog WARNING (MsgNoRepetition [])]).
Proof.
  unfold parse_repetitions, basename; rewrite !basename_acc_slash; split; [reflexivity|].
  simpl; unfold bind, log, emit, ret; reflexivity.
Qed.

Lemma dash_digits_rev a b x y :
  Forall (fun c => is_digit c = true) a -> Forall (fun c => is_digit c = true) b ->
  a ++ "-"%char :: x = b ++ "-"%char :: y -> a = b.
Proof.
  revert b; induction a as [|c a IH]; intros [|d b] Ha Hb H; simpl in H.
  - reflexivity.
  - injection H as Hd _; subst d; inversion Hb as [|? ? Hdash]; discriminate Hdash.
  - injection H as Hc _; subst c; inversion Ha as [|? ? Hdash]; discriminate Hdash.
  - injection H as Hc H; subst d; inversion Ha; inversion Hb; f_equal; eauto.
Qed.

Lemma dash_digits_unique pre g pre' g' :
  Forall (fun c => is_digit c = true) g -> Forall (fun c => is_digit c = true) g' ->
  pre ++ "-"%char :: g = pre' ++ "-"%char :: g' -> g = g'.
Proof.
  intros Hg Hg' H.
  apply (f_equal (@List.rev ascii)) in H; rewrite !rev_app_distr in H; simpl in H.
  rewrite <- !app_assoc in H; simpl in H.
  rewrite <- (rev_involutive g), <- (rev_involutive g'); f_equal.
  apply (dash_digits_rev _ _ _ _ (Forall_rev Hg) (Forall_rev Hg') H).
Qed.

Lemma dot_py_end_tail_inj x a y b :
  dot_py_end a = true -> dot_py_end b = true -> x ++ a = y ++ b -> x = y /\ a = b.
Proof.
  intros Ha Hb H.
  assert (Hab : a = b).
  { destruct (dot_py_end_inv _ Ha) as [->| ->], (dot_py_end_inv _ Hb) as [->| ->];
      try reflexivity; exfalso.
    - assert (Hx : (x ++ ["."%char; "p"%char]) ++ ["y"%char] =
                   (y ++ py ".py") ++ ["010"%char]) by (rewrite <- !app_assoc; exact H).
      apply app_inj_tail in Hx as [_ Hx]; discriminate Hx.
    - assert (Hx : (x ++ py ".py") ++ ["010"%char] =
                   (y ++ ["."%char; "p"%char]) ++ ["y"%char]) by (rewrite <- !app_assoc; exact H).
      apply app_inj_tail in Hx as [_ Hx]; discriminate Hx. }
  subst b; split; [exact (app_inv_tail _ _ _ H)|reflexivity].
Qed.

Lemma take_digits_dot_py g tail :
  Forall (fun c => is_digit c = true) g -> dot_py_end tail = true ->
  take_digits (g ++ tail) = g.
Proof.
  intros Hg Ht; induction Hg as [|c g Hc Hg IH]; simpl.
  - destruct (dot_py_end_inv _ Ht) as [->| ->]; reflexivity.
  - rewrite Hc, IH; reflexivity.
Qed.

Lemma match_here_dash_digits g tail :
  g <> [] -> Forall (fun c => is_digit c = true) g -> dot_py_end tail = true ->
  match_here ("-"%char :: g ++ tail) = Some g.
Proof.
  intros Hne Hg Ht; unfold match_here; simpl.
  rewrite (take_digits_dot_py g tail Hg Ht).
  assert (Hs : skipn (List.length g) (g ++ tail) = tail)
    by (rewrite skipn_app, Nat.sub_diag, skipn_all; reflexivity).
  assert (Hf : firstn (List.length g) (g ++ tail) = g)
    by (rewrite firstn_app, Nat.sub_diag, firstn_O, app_nil_r, firstn_all; reflexivity).
  destruct (List.length g) as [|k] eqn:Hl.
  - destruct g; [congruence|discriminate].
  - cbn [try_digits]; rewrite Hs, Ht, Hf; reflexivity.
Qed.

Lemma re_search_app_some pre t g :
  match_here t = Some g -> exists g', re_search (pre ++ t) = Some g'.
Proof.
  intros Hm; induction pre as [|c pre IH].
  - exists g; simpl; destruct t as [|c t]; [discriminate|].
    change (re_search (c :: t)) with
      (match match_here (c :: t) with Some g => Some g | None => re_search t end).
    rewrite Hm; reflexivity.
  - change (re_search ((c :: pre) ++ t)) with
      (match match_here (c :: pre ++ t) with
       | Some g => Some g | None => re_search (pre ++ t) end).
    destruct (match_here (c :: pre ++ t)) as [g'|]; [exists g'; reflexivity|exact IH].
Qed.

(** The search is anchored at the end: on a file name of the form
    [<prefix>-<digits>.py] (also with one final newline, which [$]
    accepts) the captured group is the final run of digits, whatever the
    prefix holds, and [parse_repetitions] returns its decimal value with an
    INFO log. *)
Theorem parse_repetitions_final_group p pre g tail E σ :
  basename p = pre ++ "-"%char :: g ++ tail ->
  g <> [] -> Forall (fun c => is_digit c = true) g -> dot_py_end tail = true ->
  parse_repetitions p E σ =
    (inl (py_int g), with_trace σ [EvLog INFO (MsgRepeated (basename p) (py_int g))]).
Proof.
  intros Hb Hne Hg Ht.
  assert (Hre : re_search (basename p) = Some g).
  { destruct (re_search_app_some pre _ _ (match_here_dash_digits g tail Hne Hg Ht))
      as [g' Hg'].
    rewrite <- Hb in Hg'; rewrite Hg'.
    destruct (re_search_some _ _ Hg') as [pre' [tail' [H1 [H2 [_ H4]]]]].
    rewrite Hb in H1.
    assert (Hx : (pre ++ "-"%char :: g) ++ tail = (pre' ++ "-"%char :: g') ++ tail')
      by (rewrite <- !app_assoc; exact H1).
    destruct (dot_py_end_tail_inj _ _ _ _ Ht H2 Hx) as [Hy _].
    f_equal; symmetry; exact (dash_digits_unique _ _ _ _ Hg H4 Hy). }
  rewrite parse_repetitions_run; unfold repetitions; rewrite Hre; reflexivity.
Qed.

(** Otherwise, when the file name does not end in [-<digits>.py]
    (optionally followed by one newline), the script runs once and a
    warning is logged. *)
Theorem parse_repetitions_no_group p E σ :
  ~ (exists pre g tail, basename p = pre ++ "-"%char :: g ++ tail /\ g <> [] /\
                        Forall (fun c => is_digit c = true) g /\ dot_py_end tail = true) ->
  parse_repetitions p E σ = (inl 1, with_trace σ [EvLog WARNING (MsgNoRepetition (basename p))]).
Proof.
  intros Hno; rewrite parse_repetitions_run; unfold repetitions.
  destruct (re_search (basename p)) as [g|] eqn:Hre; [|reflexivity].
  exfalso; apply Hno.
  destruct (re_search_some _ _ Hre) as [pre [tail [H1 [H2 [H3 H4]]]]].
  exists pre, g, tail; auto.
Qed.

Lemma parse_repetitions_final_group_witness :
  parse_repetitions (py "jobs/run-2-x-12.py") E_all_ok st0 =
    (inl 12, with_trace st0 [EvLog INFO (MsgRepeated (py "run-2-x-12.py") 12)]).
Proof.
  rewrite (parse_repetitions_final_group (py "jobs/run-2-x-12.py") (py "run-2-x") (py "12")
             (py ".py") E_all_ok st0); try reflexivity; try discriminate.
  repeat constructor.
Defined.

Lemma parse_repetitions_no_group_witness :
  parse_repetitions (py "jobs/run.py") E_all_ok st0 =
    (inl 1, with_trace st0 [EvLog WARNING (MsgNoRepetition (py "run.py"))]).
Proof.
  rewrite (parse_repetitions_no_group (py "jobs/run.py") E_all_ok st0); [reflexivity|].
  intros [pre [g [tail [H _]]]].
  assert (Hin : In "-"%char (basename (py "jobs/run.py")))
    by (rewrite H; apply in_or_app; right; left; reflexivity).
  vm_compute in Hin.
  repeat (destruct Hin as [Hin|Hin]; [discriminate Hin|]); exact Hin.
Defined.

Lemma parse_repetitions_last_component_witness :
  parse_repetitions (py "a/b/" ++ py "x-3.py") E_all_ok st0 =
    parse_repetitions (py "x-3.py") E_all_ok st0 /\
  parse_repetitions (py "a/b" ++ [slash]) E_all_ok st0 =
    (inl 1, with_trace st0 [EvLog WARNING (MsgNoRepetition [])]).
Proof.
  exact (parse_repetitions_last_component (py "a/b") (py "x-3.py") E_all_ok st0).
Defined.

(** ** Leading zeros in the repetition count *)

(** [int()] ignores leading zeros, so a script named [<prefix>-007.py]
    runs as many times as [<prefix>-7.py]. *)
Theorem repetitions_leading_zeros p pre z g :
  basename p = pre ++ "-"%char :: z ++ g ++ py ".py" ->
  Forall (fun c => c = "0"%char) z -> g <> [] -> Forall (fun c => is_digit c = true) g ->
  repetitions p = py_int g.
Proof.
  intros Hb Hz Hne Hg.
  assert (Hzg : Forall (fun c => is_digit c = true) (z ++ g)).
  { apply Forall_app; split; [|exact Hg].
    eapply Forall_impl; [|exact Hz]; intros c ->; reflexivity. }
  pose proof (parse_repetitions_run E_all_ok p st0) as Hrun.
  assert (Hne' : z ++ g <> []) by (destruct z; [exact Hne|discriminate]).
  rewrite (parse_repetitions_final_group p pre (z ++ g) (py ".py") E_all_ok st0)
    in Hrun by (try rewrite <- app_assoc; auto).
  injection Hrun as Hrep _.
  rewrite <- Hrep; unfold py_int; rewrite fold_left_app.
  f_equal; clear Hb Hzg Hne' Hrep; induction Hz as [|c z Hc Hz IH]; [reflexivity|].
  subst c; simpl; exact IH.
Qed.

Lemma repetitions_leading_zeros_witness :
  repetitions (py "jobs/task-007.py") = 7.
Proof.
  rewrite (repetitions_leading_zeros (py "jobs/task-007.py") (py "task") (py "00") (py "7"));
    try reflexivity; try discriminate; repeat constructor.
Defined.
